(** * Settings of the FastAPI backend: [app/core/config.py]

    A shallow embedding of the configuration module: the [Settings] class with
    its 21 declared fields and defaults, the [assemble_cors_origins] validator
    of [ALLOWED_HOSTS], and the [.env] loading that runs before the class is
    instantiated. *)

From Stdlib Require Import String Ascii ZArith NArith List.
From stdpp Require Import gmap list.

Set Default Proof Using "Type".
Set Warnings "-register-all".

(** ** Python strings

    A Python [str] is a sequence of Unicode code points.  Code points are
    natural numbers; literals of the source are written [lit "..."]. *)

Abbreviation char := N (only parsing).
Abbreviation str := (list N) (only parsing).

Definition lit (s : string) : str :=
  List.map N_of_ascii (list_ascii_of_string s).

(** The separator of [v.split(",")]. *)
Definition comma : char := 44%N.

(** [str.strip()] without argument removes the characters for which
    [str.isspace] holds: U+0009..U+000D, U+001C..U+0020, U+0085, U+00A0,
    U+1680, U+2000..U+200A, U+2028, U+2029, U+202F, U+205F and U+3000. *)
Definition isspace (c : char) : bool :=
  ((9 <=? c) && (c <=? 13) || (28 <=? c) && (c <=? 32)
   || (c =? 133) || (c =? 160) || (c =? 5760)
   || (8192 <=? c) && (c <=? 8202)
   || (c =? 8232) || (c =? 8233) || (c =? 8239) || (c =? 8287)
   || (c =? 12288))%N.

(** [s.split(sep)] for a one-character separator: the pieces between the
    occurrences of [sep], in order; there is always at least one piece. *)
Fixpoint split (sep : char) (s : str) : list str :=
  match s with
  | [] => [[]]
  | c :: s' =>
      if (c =? sep)%N then [] :: split sep s'
      else match split sep s' with
           | p :: ps => (c :: p) :: ps
           | [] => [[c]]
           end
  end.

Fixpoint lstrip (s : str) : str :=
  match s with
  | c :: s' => if isspace c then lstrip s' else s
  | [] => []
  end.

Definition rstrip (s : str) : str := rev (lstrip (rev s)).

(** [s.strip()] *)
Definition strip (s : str) : str := rstrip (lstrip s).

(** Truth value of a string in a condition: [if i.strip()]. *)
Definition truthy (s : str) : bool :=
  match s with
  | [] => false
  | _ :: _ => true
  end.

(** ** Python values

    The values a field can receive before validation: what the settings
    sources hand to the validators (a string taken from the environment, or
    the value decoded from it). *)
Inductive pyval : Type :=
| VNone
| VBool (b : bool)
| VInt (n : Z)
| VStr (s : str)
| VList (l : list pyval)
| VDict (d : list (str * pyval)).

(** [isinstance(v, str)] and [isinstance(v, list)] *)
Definition isinstance_str (v : pyval) : bool :=
  match v with
  | VStr _ => true
  | _ => false
  end.

Definition isinstance_list (v : pyval) : bool :=
  match v with
  | VList _ => true
  | _ => false
  end.

(** ** The validator of [ALLOWED_HOSTS]

<<
    @field_validator("ALLOWED_HOSTS", mode="before")
    @classmethod
    def assemble_cors_origins(cls, v):
        if isinstance(v, str):
            return [i.strip() for i in v.split(",") if i.strip()]
        elif isinstance(v, list):
            return v
        return ["*"]
>> *)
Definition assemble_cors_origins (v : pyval) : pyval :=
  match v with
  | VStr s =>
      VList (List.map (fun i => VStr (strip i))
               (List.filter (fun i => truthy (strip i)) (split comma s)))
  | VList _ => v
  | _ => VList [VStr (lit "*")]
  end.


(** ** The [Settings] class

    [ALLOWED_HOSTS] is annotated [Union[List[str], str]]; the other fields are
    [str], [Optional[str]] or [int]. *)
Inductive hosts : Type :=
| HostsList (l : list str)
| HostsStr (s : str).

Record Settings : Type := mkSettings {
  PROJECT_NAME : str;
  VERSION : str;
  DESCRIPTION : str;
  API_V1_STR : str;
  ENVIRONMENT : str;
  ALLOWED_HOSTS : hosts;
  AWS_REGION : str;
  AWS_ACCESS_KEY_ID : option str;
  AWS_SECRET_ACCESS_KEY : option str;
  DYNAMODB_TABLE_PREFIX : str;
  USERS_TABLE_NAME : str;
  COGNITO_USER_POOL_ID : option str;
  COGNITO_CLIENT_ID : option str;
  COGNITO_CLIENT_SECRET : option str;
  COGNITO_REGION : str;
  S3_BUCKET_NAME : option str;
  S3_REGION : str;
  JWT_SECRET_KEY : str;
  JWT_ALGORITHM : str;
  ACCESS_TOKEN_EXPIRE_MINUTES : Z;
  CACHE_TTL : Z
}.

(** The names of the declared fields, in declaration order. *)
Definition field_names : list str :=
  List.map lit
    ["PROJECT_NAME"; "VERSION"; "DESCRIPTION"; "API_V1_STR"; "ENVIRONMENT";
     "ALLOWED_HOSTS"; "AWS_REGION"; "AWS_ACCESS_KEY_ID";
     "AWS_SECRET_ACCESS_KEY"; "DYNAMODB_TABLE_PREFIX"; "USERS_TABLE_NAME";
     "COGNITO_USER_POOL_ID"; "COGNITO_CLIENT_ID"; "COGNITO_CLIENT_SECRET";
     "COGNITO_REGION"; "S3_BUCKET_NAME"; "S3_REGION"; "JWT_SECRET_KEY";
     "JWT_ALGORITHM"; "ACCESS_TOKEN_EXPIRE_MINUTES"; "CACHE_TTL"]%string.

(** Validation of a value against [Union[List[str], str]]: a list whose
    elements are all strings, or a string. *)
Definition as_str (v : pyval) : option str :=
  match v with
  | VStr s => Some s
  | _ => None
  end.

Definition coerce_hosts (v : pyval) : option hosts :=
  match v with
  | VList l => HostsList <$> mapM as_str l
  | VStr s => Some (HostsStr s)
  | _ => None
  end.

(** The [ALLOWED_HOSTS] field of an instance built from the raw value [v]:
    the "before" validator runs first, the annotation is checked on what it
    returns. *)
Definition validate_ALLOWED_HOSTS (v : pyval) : option hosts :=
  coerce_hosts (assemble_cors_origins v).

(** ** Loading

    Modelled from the spec: the coercion of an environment string to an [int]
    field belongs to pydantic, which is not part of the repository.  The spec
    has it parse the string as a base-10 integer; [parse_int] reads that as an
    optional sign followed by one or more decimal digits.  The loader below
    takes the coercion as a parameter, so that what is proved of it holds
    whatever strings pydantic accepts besides these; [parse_int] is the
    coercion the loader is run with on concrete inputs. *)
Definition digit (c : char) : option Z :=
  if ((48 <=? c) && (c <=? 57))%N then Some (Z.of_N (c - 48)) else None.

Fixpoint parse_digits (acc : Z) (s : str) : option Z :=
  match s with
  | [] => Some acc
  | c :: s' =>
      match digit c with
      | Some d => parse_digits (10 * acc + d) s'
      | None => None
      end
  end.

Definition parse_int (s : str) : option Z :=
  match s with
  | [] => None
  | c :: s' =>
      if (c =? 45)%N then
        (if truthy s' then Z.opp <$> parse_digits 0 s' else None)
      else if (c =? 43)%N then
        (if truthy s' then parse_digits 0 s' else None)
      else parse_digits 0 s
  end.

(** Modelled from the spec: [load_dotenv] belongs to python-dotenv, which is
    not part of the repository.  The entries of the file are merged into the
    process environment; with [override] set an entry of the file replaces a
    variable of the same name, without it the existing variable is kept.  An
    absent file changes nothing. *)
Definition load_dotenv (override : bool)
    (dotenv : option (gmap str str)) (environ : gmap str str) : gmap str str :=
  match dotenv with
  | Some entries => if override then entries ∪ environ else environ ∪ entries
  | None => environ
  end.

(** Failure of the construction: the fields whose value was rejected. *)
Record ConfigError : Type := mkConfigError { rejected : list str }.

Section Loader.

(** Modelled from the spec: the settings sources of pydantic-settings are
    not part of the repository.  A field is looked up under its exact name
    ([case_sensitive = True]), first in the process environment, then in the
    file named by [env_file]; when neither has it, the declared default is
    used.  A value found for [ALLOWED_HOSTS] is first decoded as a
    structured value; [decode_complex_value] is that decoder, and a string
    it cannot decode is kept as it is.  A file that defines a name which is
    no field is left out of this model: pydantic-settings refuses such a
    name as an extra input (see [names_fields_only]). *)
Variable decode_complex_value : str -> option pyval.

(** Modelled from the spec: the coercion of the string found for an [int]
    field, with [None] when pydantic rejects the string. *)
Variable coerce_int : str -> option Z.

Definition source_value (dotenv : option (gmap str str))
    (environ : gmap str str) (name : str) : option str :=
  match environ !! name with
  | Some s => Some s
  | None => dotenv ≫= (.!! name)
  end.

Definition str_field (found : option str) (dflt : str) : str :=
  default dflt found.

Definition int_field (name : str) (found : option str) (dflt : Z)
  : str + Z :=
  match found with
  | None => inr dflt
  | Some s =>
      match coerce_int s with
      | Some n => inr n
      | None => inl name
      end
  end.

Definition raw_hosts (s : str) : pyval :=
  match decode_complex_value s with
  | Some v => v
  | None => VStr s
  end.

Definition hosts_field (name : str) (found : option str) : str + hosts :=
  match found with
  | None => inr (HostsList [lit "*"])
  | Some s =>
      match validate_ALLOWED_HOSTS (raw_hosts s) with
      | Some h => inr h
      | None => inl name
      end
  end.

Definition failures {A : Type} (r : str + A) : list str :=
  match r with
  | inl name => [name]
  | inr _ => []
  end.

(** [Settings()] *)
Definition Settings_init (dotenv : option (gmap str str))
    (environ : gmap str str) : ConfigError + Settings :=
  let get := source_value dotenv environ in
  let allowed := hosts_field (lit "ALLOWED_HOSTS") (get (lit "ALLOWED_HOSTS")) in
  let minutes :=
    int_field (lit "ACCESS_TOKEN_EXPIRE_MINUTES")
      (get (lit "ACCESS_TOKEN_EXPIRE_MINUTES")) 30 in
  let ttl := int_field (lit "CACHE_TTL") (get (lit "CACHE_TTL")) 300 in
  match allowed, minutes, ttl with
  | inr h, inr m, inr t =>
      inr {|
        PROJECT_NAME :=
          str_field (get (lit "PROJECT_NAME")) (lit "FastAPI AWS Boilerplate");
        VERSION := str_field (get (lit "VERSION")) (lit "1.0.0");
        DESCRIPTION :=
          str_field (get (lit "DESCRIPTION"))
            (lit "FastAPI application with AWS services");
        API_V1_STR := str_field (get (lit "API_V1_STR")) (lit "/api/v1");
        ENVIRONMENT := str_field (get (lit "ENVIRONMENT")) (lit "development");
        ALLOWED_HOSTS := h;
        AWS_REGION := str_field (get (lit "AWS_REGION")) (lit "us-east-1");
        AWS_ACCESS_KEY_ID := get (lit "AWS_ACCESS_KEY_ID");
        AWS_SECRET_ACCESS_KEY := get (lit "AWS_SECRET_ACCESS_KEY");
        DYNAMODB_TABLE_PREFIX :=
          str_field (get (lit "DYNAMODB_TABLE_PREFIX")) (lit "fastapi-app");
        USERS_TABLE_NAME :=
          str_field (get (lit "USERS_TABLE_NAME")) (lit "fastapi-app-users");
        COGNITO_USER_POOL_ID := get (lit "COGNITO_USER_POOL_ID");
        COGNITO_CLIENT_ID := get (lit "COGNITO_CLIENT_ID");
        COGNITO_CLIENT_SECRET := get (lit "COGNITO_CLIENT_SECRET");
        COGNITO_REGION := str_field (get (lit "COGNITO_REGION")) (lit "us-east-1");
        S3_BUCKET_NAME := get (lit "S3_BUCKET_NAME");
        S3_REGION := str_field (get (lit "S3_REGION")) (lit "us-east-1");
        JWT_SECRET_KEY :=
          str_field (get (lit "JWT_SECRET_KEY")) (lit "your-secret-key-change-this");
        JWT_ALGORITHM := str_field (get (lit "JWT_ALGORITHM")) (lit "HS256");
        ACCESS_TOKEN_EXPIRE_MINUTES := m;
        CACHE_TTL := t
      |}
  | _, _, _ =>
      inl (mkConfigError (failures allowed ++ failures minutes ++ failures ttl))
  end.

(** The module body: [load_dotenv(".env", override=True)] and then
    [settings = Settings()].  The result comes with the process environment
    as the call leaves it. *)
Definition load (dotenv : option (gmap str str)) (environ : gmap str str)
  : (ConfigError + Settings) * gmap str str :=
  let environ' := load_dotenv true dotenv environ in
  (Settings_init dotenv environ', environ').

(** The value of [ALLOWED_HOSTS] as a Python value. *)
Definition hosts_value (h : hosts) : pyval :=
  match h with
  | HostsList l => VList (List.map VStr l)
  | HostsStr s => VStr s
  end.

(** What the field called [name] holds when the string [s] is found for it:
    the validated list for [ALLOWED_HOSTS], the coerced integer for the two
    [int] fields, the string itself for the others; [None] when the string is
    rejected. *)
Definition coerce_field (name s : str) : option pyval :=
  if decide (name = lit "ALLOWED_HOSTS") then
    hosts_value <$> validate_ALLOWED_HOSTS (raw_hosts s)
  else if decide (name = lit "ACCESS_TOKEN_EXPIRE_MINUTES") then
    VInt <$> coerce_int s
  else if decide (name = lit "CACHE_TTL") then
    VInt <$> coerce_int s
  else Some (VStr s).

End Loader.

(** The [.env] file, when there is one, defines names of fields only: the
    files on which the model of the sources above says what the program
    does. *)
Definition names_fields_only (dotenv : option (gmap str str)) : Prop :=
  ∀ entries k, dotenv = Some entries → is_Some (entries !! k) → k ∈ field_names.

(** The value of an [Optional[str]] field as a Python value. *)
Definition optional_value (o : option str) : pyval :=
  match o with
  | Some s => VStr s
  | None => VNone
  end.

(** The fields of an instance by name, in declaration order. *)
Definition fields_of (st : Settings) : list (str * pyval) :=
  [ (lit "PROJECT_NAME", VStr (PROJECT_NAME st));
    (lit "VERSION", VStr (VERSION st));
    (lit "DESCRIPTION", VStr (DESCRIPTION st));
    (lit "API_V1_STR", VStr (API_V1_STR st));
    (lit "ENVIRONMENT", VStr (ENVIRONMENT st));
    (lit "ALLOWED_HOSTS", hosts_value (ALLOWED_HOSTS st));
    (lit "AWS_REGION", VStr (AWS_REGION st));
    (lit "AWS_ACCESS_KEY_ID", optional_value (AWS_ACCESS_KEY_ID st));
    (lit "AWS_SECRET_ACCESS_KEY", optional_value (AWS_SECRET_ACCESS_KEY st));
    (lit "DYNAMODB_TABLE_PREFIX", VStr (DYNAMODB_TABLE_PREFIX st));
    (lit "USERS_TABLE_NAME", VStr (USERS_TABLE_NAME st));
    (lit "COGNITO_USER_POOL_ID", optional_value (COGNITO_USER_POOL_ID st));
    (lit "COGNITO_CLIENT_ID", optional_value (COGNITO_CLIENT_ID st));
    (lit "COGNITO_CLIENT_SECRET", optional_value (COGNITO_CLIENT_SECRET st));
    (lit "COGNITO_REGION", VStr (COGNITO_REGION st));
    (lit "S3_BUCKET_NAME", optional_value (S3_BUCKET_NAME st));
    (lit "S3_REGION", VStr (S3_REGION st));
    (lit "JWT_SECRET_KEY", VStr (JWT_SECRET_KEY st));
    (lit "JWT_ALGORITHM", VStr (JWT_ALGORITHM st));
    (lit "ACCESS_TOKEN_EXPIRE_MINUTES", VInt (ACCESS_TOKEN_EXPIRE_MINUTES st));
    (lit "CACHE_TTL", VInt (CACHE_TTL st)) ].

(** [getattr(settings, name)], with [None] for a name that is no field. *)
Fixpoint assoc (name : str) (kvs : list (str * pyval)) : option pyval :=
  match kvs with
  | [] => None
  | (k, v) :: kvs' => if decide (k = name) then Some v else assoc name kvs'
  end.

Definition getattr (st : Settings) (name : str) : option pyval :=
  assoc name (fields_of st).

(** ** The defaults and the comparison of instances, as documented

    The default of every field, from the table of the data model. *)
Definition documented_defaults : Settings :=
  {| PROJECT_NAME := lit "FastAPI AWS Boilerplate";
     VERSION := lit "1.0.0";
     DESCRIPTION := lit "FastAPI application with AWS services";
     API_V1_STR := lit "/api/v1";
     ENVIRONMENT := lit "development";
     ALLOWED_HOSTS := HostsList [lit "*"];
     AWS_REGION := lit "us-east-1";
     AWS_ACCESS_KEY_ID := None;
     AWS_SECRET_ACCESS_KEY := None;
     DYNAMODB_TABLE_PREFIX := lit "fastapi-app";
     USERS_TABLE_NAME := lit "fastapi-app-users";
     COGNITO_USER_POOL_ID := None;
     COGNITO_CLIENT_ID := None;
     COGNITO_CLIENT_SECRET := None;
     COGNITO_REGION := lit "us-east-1";
     S3_BUCKET_NAME := None;
     S3_REGION := lit "us-east-1";
     JWT_SECRET_KEY := lit "your-secret-key-change-this";
     JWT_ALGORITHM := lit "HS256";
     ACCESS_TOKEN_EXPIRE_MINUTES := 30;
     CACHE_TTL := 300 |}.

(** Two instances are field-wise equal. *)
Definition fieldwise_eq (a b : Settings) : Prop :=
  PROJECT_NAME a = PROJECT_NAME b
  ∧ VERSION a = VERSION b
  ∧ DESCRIPTION a = DESCRIPTION b
  ∧ API_V1_STR a = API_V1_STR b
  ∧ ENVIRONMENT a = ENVIRONMENT b
  ∧ ALLOWED_HOSTS a = ALLOWED_HOSTS b
  ∧ AWS_REGION a = AWS_REGION b
  ∧ AWS_ACCESS_KEY_ID a = AWS_ACCESS_KEY_ID b
  ∧ AWS_SECRET_ACCESS_KEY a = AWS_SECRET_ACCESS_KEY b
  ∧ DYNAMODB_TABLE_PREFIX a = DYNAMODB_TABLE_PREFIX b
  ∧ USERS_TABLE_NAME a = USERS_TABLE_NAME b
  ∧ COGNITO_USER_POOL_ID a = COGNITO_USER_POOL_ID b
  ∧ COGNITO_CLIENT_ID a = COGNITO_CLIENT_ID b
  ∧ COGNITO_CLIENT_SECRET a = COGNITO_CLIENT_SECRET b
  ∧ COGNITO_REGION a = COGNITO_REGION b
  ∧ S3_BUCKET_NAME a = S3_BUCKET_NAME b
  ∧ S3_REGION a = S3_REGION b
  ∧ JWT_SECRET_KEY a = JWT_SECRET_KEY b
  ∧ JWT_ALGORITHM a = JWT_ALGORITHM b
  ∧ ACCESS_TOKEN_EXPIRE_MINUTES a = ACCESS_TOKEN_EXPIRE_MINUTES b
  ∧ CACHE_TTL a = CACHE_TTL b.

(** Two calls either both fail or both return field-wise equal instances. *)
Definition outcomes_agree (r1 r2 : ConfigError + Settings) : Prop :=
  match r1, r2 with
  | inr a, inr b => fieldwise_eq a b
  | inl _, inl _ => True
  | _, _ => False
  end.

(** ** The normalizer in the words of the specification

    "Split on [,], trim surrounding whitespace from each piece, discard empty
    pieces, keep order", stated as relations between a string and its pieces
    and between a piece and its trimmed form. *)

(** [sep.join(pieces)] *)
Fixpoint join (sep : char) (pieces : list str) : str :=
  match pieces with
  | [] => []
  | p :: ps =>
      match ps with
      | [] => p
      | _ :: _ => p ++ sep :: join sep ps
      end
  end.

(** [pieces] are the pieces of [s] between the separators. *)
Definition split_on (sep : char) (s : str) (pieces : list str) : Prop :=
  pieces ≠ [] ∧ join sep pieces = s ∧ Forall (λ p, sep ∉ p) pieces.

(** [t] is [p] without its leading and trailing whitespace. *)
Definition trimmed (p t : str) : Prop :=
  ∃ l r, p = l ++ t ++ r
    ∧ Forall (λ c, isspace c = true) l
    ∧ Forall (λ c, isspace c = true) r
    ∧ (∀ c, head t = Some c → isspace c = false)
    ∧ (∀ c, last t = Some c → isspace c = false).

Definition nonempty (s : str) : bool := negb (bool_decide (s = [])).

(** ** Entries of the allow-list

    The strings the comprehension of [assemble_cors_origins] yields for the
    string [s], before they are wrapped in a list value. *)
Definition comprehension (s : str) : list str :=
  List.map strip (List.filter (λ i, truthy (strip i)) (split comma s)).

(** A well-formed entry: not empty, without a comma, and unchanged by
    [strip], that is without whitespace at either end. *)
Definition entry_ok (t : str) : Prop :=
  t ≠ [] ∧ (comma ∉ t) ∧ strip t = t.

(** [t] occurs in [s] as a contiguous run of characters. *)
Definition substring (t s : str) : Prop :=
  ∃ a b, s = a ++ t ++ b.

(** [p'] is [p] with whitespace added at its ends. *)
Definition padded (p p' : str) : Prop :=
  ∃ l r, p' = l ++ p ++ r
    ∧ Forall (λ c, isspace c = true) l
    ∧ Forall (λ c, isspace c = true) r.

(** ** Lemmas on [split] *)

Lemma split_cons sep c s :
  split sep (c :: s) =
    if (c =? sep)%N then [] :: split sep s
    else match split sep s with
         | p :: ps => (c :: p) :: ps
         | [] => [[c]]
         end.
Proof. reflexivity. Qed.

Lemma split_not_nil sep s : split sep s ≠ [].
Proof.
  destruct s as [|c s]; [done|].
  rewrite split_cons. destruct (c =? sep)%N; [done|].
  by destruct (split sep s).
Qed.

Lemma join_cons_cons sep p q ps :
  join sep (p :: q :: ps) = p ++ sep :: join sep (q :: ps).
Proof. reflexivity. Qed.

Lemma join_split sep s : join sep (split sep s) = s.
Proof.
  induction s as [|c s IH]; [done|].
  rewrite split_cons. destruct (N.eqb_spec c sep) as [->|Hne].
  - pose proof (split_not_nil sep s) as Hnil.
    destruct (split sep s) as [|q ps]; [done|].
    rewrite join_cons_cons, IH. done.
  - pose proof (split_not_nil sep s) as Hnil.
    destruct (split sep s) as [|q ps]; [done|].
    destruct ps as [|q' ps].
    + simpl in *. by rewrite IH.
    + rewrite join_cons_cons. rewrite join_cons_cons in IH.
      by rewrite <- IH.
Qed.

Lemma split_no_sep sep s : Forall (λ p, sep ∉ p) (split sep s).
Proof.
  induction s as [|c s IH].
  - repeat constructor. apply not_elem_of_nil.
  - rewrite split_cons. destruct (N.eqb_spec c sep) as [->|Hne].
    + constructor; [apply not_elem_of_nil | done].
    + destruct (split sep s) as [|q ps].
      * repeat constructor. rewrite elem_of_cons, elem_of_nil.
        intros [Heq|[]]. by apply Hne.
      * inversion IH as [|? ? Hq Hps]; subst. constructor; [|done].
        rewrite elem_of_cons. intros [Heq|Hin]; [by apply Hne | by apply Hq].
Qed.

Lemma split_split_on sep s : split_on sep s (split sep s).
Proof.
  split; [apply split_not_nil|].
  split; [apply join_split | apply split_no_sep].
Qed.

(** The pieces are made of characters of the string. *)
Lemma split_Forall (P : char → Prop) sep s :
  Forall P s → Forall (Forall P) (split sep s).
Proof.
  induction 1 as [|c s Hc Hs IH]; [by repeat constructor|].
  rewrite split_cons. destruct (c =? sep)%N; [by constructor|].
  destruct (split sep s) as [|q ps]; [by repeat constructor|].
  inversion IH; subst. by repeat constructor.
Qed.

Lemma app_sep_inj (sep : char) (a b x y : str) :
  sep ∉ a → sep ∉ b → a ++ sep :: x = b ++ sep :: y → a = b ∧ x = y.
Proof.
  revert b. induction a as [|c a IH]; intros [|d b] Ha Hb Heq; simpl in Heq.
  - by inversion Heq.
  - inversion Heq; subst. exfalso. apply Hb. by left.
  - inversion Heq; subst. exfalso. apply Ha. by left.
  - injection Heq as -> Heq. rewrite not_elem_of_cons in Ha, Hb.
    destruct Ha as [_ Ha], Hb as [_ Hb].
    by destruct (IH b Ha Hb Heq) as [-> ->].
Qed.

Lemma app_sep_not_free (sep : char) (a b y : str) :
  sep ∉ a → a ≠ b ++ sep :: y.
Proof.
  intros Ha ->. apply Ha. rewrite elem_of_app, elem_of_cons. auto.
Qed.

(** The pieces of a string are determined by [split_on]. *)
Lemma split_on_unique sep s ps qs :
  split_on sep s ps → split_on sep s qs → ps = qs.
Proof.
  intros (Hps & <- & Fps) (Hqs & Hj & Fqs). revert qs Hps Hqs Hj Fps Fqs.
  induction ps as [|p ps IH]; [done|]. intros qs _ Hqs Hj Fps Fqs.
  destruct qs as [|q qs]; [done|].
  inversion Fps as [|? ? Hp Fps']; subst. inversion Fqs as [|? ? Hq Fqs']; subst.
  destruct ps as [|p' ps], qs as [|q' qs]; simpl in Hj.
  - by subst.
  - symmetry in Hj. by apply app_sep_not_free in Hj.
  - by apply app_sep_not_free in Hj.
  - apply app_sep_inj in Hj as [-> Hj]; [|done..].
    f_equal. by apply IH.
Qed.

(** ** Lemmas on [strip] *)

Lemma lstrip_app s :
  ∃ l, s = l ++ lstrip s ∧ Forall (λ c, isspace c = true) l.
Proof.
  induction s as [|c s (l & Hl & Fl)]; [by exists []|].
  simpl. destruct (isspace c) eqn:Hc.
  - exists (c :: l). split; [by rewrite <- app_comm_cons, <- Hl | by constructor].
  - by exists [].
Qed.

Lemma lstrip_head s c : head (lstrip s) = Some c → isspace c = false.
Proof.
  induction s as [|d s IH]; [done|].
  simpl. destruct (isspace d) eqn:Hd; [done|].
  simpl. by intros [= <-].
Qed.

Lemma lstrip_all_space s : Forall (λ c, isspace c = true) s → lstrip s = [].
Proof. induction 1 as [|c s Hc _ IH]; [done|]. simpl. by rewrite Hc. Qed.

Lemma lstrip_fixed s :
  (∀ c, head s = Some c → isspace c = false) → lstrip s = s.
Proof.
  destruct s as [|c s]; [done|]. intros H. simpl. by rewrite (H c).
Qed.

Lemma rstrip_app s :
  ∃ r, s = rstrip s ++ r ∧ Forall (λ c, isspace c = true) r.
Proof.
  unfold rstrip. destruct (lstrip_app (rev s)) as (l & Hl & Fl).
  exists (rev l). split; [|by apply Forall_rev].
  rewrite <- rev_app_distr, <- Hl. by rewrite rev_involutive.
Qed.

Lemma last_rev_head (s : str) : last (rev s) = head s.
Proof. destruct s as [|c s]; [done|]. simpl. by rewrite last_snoc. Qed.

Lemma rstrip_last s c : last (rstrip s) = Some c → isspace c = false.
Proof. unfold rstrip. rewrite last_rev_head. apply lstrip_head. Qed.

(** Removing trailing whitespace leaves the first character in place, unless
    nothing remains. *)
Lemma rstrip_head s c :
  (∀ d, head s = Some d → isspace d = false) →
  head (rstrip s) = Some c → isspace c = false.
Proof.
  intros Hs. destruct (rstrip_app s) as (r & Hr & _).
  destruct (rstrip s) as [|d t] eqn:Ht; [done|].
  intros [= ->]. apply Hs. by rewrite Hr.
Qed.

Lemma strip_trimmed s : trimmed s (strip s).
Proof.
  unfold strip. destruct (lstrip_app s) as (l & Hl & Fl).
  destruct (rstrip_app (lstrip s)) as (r & Hr & Fr).
  exists l, r. split; [by rewrite <- Hr|].
  repeat split; [done..| |].
  - intros c. apply rstrip_head. apply lstrip_head.
  - apply rstrip_last.
Qed.

Lemma strip_all_space s : Forall (λ c, isspace c = true) s → strip s = [].
Proof. intros H. unfold strip. by rewrite lstrip_all_space. Qed.

(** The trimmed form of a string is determined by [trimmed]. *)
Lemma trimmed_strip p t : trimmed p t → strip p = t.
Proof.
  intros (l & r & -> & Fl & Fr & Hh & Hl). unfold strip.
  assert (Hls : lstrip (l ++ t ++ r) = lstrip (t ++ r)).
  { clear -Fl. induction Fl as [|c l Hc _ IH]; [done|]. simpl. by rewrite Hc. }
  rewrite Hls. clear Hls Fl l.
  destruct t as [|c t].
  - simpl. rewrite lstrip_all_space by done. done.
  - rewrite lstrip_fixed by (intros d [= <-]; by apply Hh).
    unfold rstrip. rewrite rev_app_distr.
    assert (Hrs : lstrip (rev r ++ rev (c :: t)) = rev (c :: t)).
    { apply Forall_rev in Fr. revert Fr. generalize (rev r). intros r' Fr.
      induction Fr as [|d r'' Hd _ IH].
      - apply lstrip_fixed. intros d. rewrite <- last_rev_head, rev_involutive.
        apply Hl.
      - simpl. by rewrite Hd. }
    rewrite Hrs. apply rev_involutive.
Qed.

Lemma truthy_nonempty s : truthy s = nonempty s.
Proof. by destruct s. Qed.

(** ** The validator *)

Lemma comprehension_filter_map (l : list str) :
  List.map (λ i, VStr (strip i)) (List.filter (λ i, truthy (strip i)) l) =
  List.map VStr (List.filter nonempty (List.map strip l)).
Proof.
  induction l as [|p l IH]; [done|].
  simpl. rewrite <- truthy_nonempty. destruct (truthy (strip p)); simpl; by rewrite IH.
Qed.

Lemma Forall2_trimmed_strip (l : list str) : Forall2 trimmed l (List.map strip l).
Proof. induction l; constructor; [apply strip_trimmed | done]. Qed.

(** Pieces and trimmed forms that meet the specification's relations are the
    ones the validator computes. *)
Lemma normalizer_determined (s : str) (pieces ts : list str) :
  split_on comma s pieces → Forall2 trimmed pieces ts →
  assemble_cors_origins (VStr s) = VList (List.map VStr (List.filter nonempty ts)).
Proof.
  intros Hsplit Htrim.
  rewrite (split_on_unique _ _ _ _ Hsplit (split_split_on comma s)) in Htrim.
  assert (ts = List.map strip (split comma s)) as ->.
  { revert Htrim. generalize (split comma s). intros l Hl.
    induction Hl as [|p t l ts' Hpt _ IH]; [done|].
    simpl. by rewrite (trimmed_strip _ _ Hpt), IH. }
  simpl. by rewrite comprehension_filter_map.
Qed.

(** C1: on a string the validator splits on [,], trims each piece, drops the
    pieces that are empty after trimming and keeps the others in order; on
    ["a, b ,,c"] it returns [["a", "b", "c"]]. *)
Theorem assemble_cors_origins_str (s : str) :
  (∃ pieces ts : list str,
      split_on comma s pieces
      ∧ Forall2 trimmed pieces ts
      ∧ assemble_cors_origins (VStr s) =
          VList (List.map VStr (List.filter nonempty ts)))
  ∧ assemble_cors_origins (VStr (lit "a, b ,,c")) =
      VList [VStr (lit "a"); VStr (lit "b"); VStr (lit "c")].
Proof.
  split; [|reflexivity].
  exists (split comma s), (List.map strip (split comma s)).
  split; [apply split_split_on|].
  split; [apply Forall2_trimmed_strip|].
  simpl. by rewrite comprehension_filter_map.
Qed.

Lemma mapM_as_str (l : list str) : mapM as_str (List.map VStr l) = Some l.
Proof. induction l as [|s l IH]; [done|]. simpl. by rewrite IH. Qed.

Lemma mapM_as_str_inv (raw : list pyval) (l : list str) :
  mapM as_str raw = Some l → raw = List.map VStr l.
Proof.
  revert l. induction raw as [|v raw IH]; intros l.
  - by intros [= <-].
  - simpl. destruct v; try done. simpl.
    destruct (mapM as_str raw) as [l'|] eqn:Hraw; [|done].
    intros [= <-]. simpl. by rewrite (IH l').
Qed.

(** C3: a raw value that is a list is returned as it is, with every element
    in its place; nothing is trimmed and nothing is dropped. *)
Theorem assemble_cors_origins_list (l : list pyval) :
  assemble_cors_origins (VList l) = VList l
  ∧ ∀ hs : list str, validate_ALLOWED_HOSTS (VList (List.map VStr hs)) = Some (HostsList hs).
Proof.
  split; [reflexivity|].
  intros hs. unfold validate_ALLOWED_HOSTS. simpl. by rewrite mapM_as_str.
Qed.

(** C4: a raw value that is neither a string nor a list gives the fallback
    [["*"]]; the validator returns, it does not raise. *)
Theorem assemble_cors_origins_other (v : pyval) :
  isinstance_str v = false → isinstance_list v = false →
  assemble_cors_origins v = VList [VStr (lit "*")]
  ∧ validate_ALLOWED_HOSTS v = Some (HostsList [lit "*"]).
Proof.
  intros Hstr Hlist. unfold validate_ALLOWED_HOSTS. by destruct v.
Qed.

Lemma assemble_cors_origins_other_witness :
  assemble_cors_origins (VInt 5) = VList [VStr (lit "*")]
  ∧ validate_ALLOWED_HOSTS (VInt 5) = Some (HostsList [lit "*"]).
Proof. apply (assemble_cors_origins_other (VInt 5)); reflexivity. Defined.

(** The validator always returns a list. *)
Lemma assemble_cors_origins_is_list (v : pyval) :
  isinstance_list (assemble_cors_origins v) = true.
Proof. by destruct v. Qed.

(** C9: the validator is idempotent. *)
Theorem assemble_cors_origins_idempotent (v : pyval) :
  assemble_cors_origins (assemble_cors_origins v) = assemble_cors_origins v.
Proof. by destruct v. Qed.

Lemma filter_truthy_strip_all_space (l : list str) :
  Forall (Forall (λ c, isspace c = true)) l →
  List.filter (λ i, truthy (strip i)) l = [].
Proof.
  induction 1 as [|p l Hp _ IH]; [done|].
  simpl. by rewrite (strip_all_space p Hp).
Qed.

Lemma split_comma_all_space (s : str) :
  Forall (λ c, c = comma ∨ isspace c = true) s →
  Forall (Forall (λ c, isspace c = true)) (split comma s).
Proof.
  intros Hs. pose proof (split_Forall _ comma s Hs) as Hall.
  pose proof (split_no_sep comma s) as Hsep.
  revert Hall Hsep. generalize (split comma s). intros l Hall.
  induction Hall as [|p l Hp _ IH]; [done|].
  intros Hsep. inversion Hsep as [|? ? Hfree Hsep']; subst.
  constructor; [|by apply IH].
  clear -Hp Hfree. induction Hp as [|c p Hc _ IH]; [done|].
  rewrite not_elem_of_cons in Hfree. destruct Hfree as [Hne Hfree].
  constructor; [|by apply IH]. by destruct Hc as [->|Hc].
Qed.

(** C10: on a string made of commas and whitespace only, the empty string
    included, the validator returns the empty list and not [["*"]]; the
    instance built from it has an empty allow-list. *)
Theorem assemble_cors_origins_blank (s : str) :
  Forall (λ c, c = comma ∨ isspace c = true) s →
  assemble_cors_origins (VStr s) = VList []
  ∧ assemble_cors_origins (VStr s) ≠ VList [VStr (lit "*")]
  ∧ validate_ALLOWED_HOSTS (VStr s) = Some (HostsList []).
Proof.
  intros Hs.
  assert (Hnil : assemble_cors_origins (VStr s) = VList []).
  { simpl. rewrite filter_truthy_strip_all_space; [done|].
    by apply split_comma_all_space. }
  unfold validate_ALLOWED_HOSTS. rewrite Hnil. by repeat split.
Qed.

Lemma assemble_cors_origins_blank_witness :
  (assemble_cors_origins (VStr (lit ", ,,")) = VList []
   ∧ assemble_cors_origins (VStr (lit ", ,,")) ≠ VList [VStr (lit "*")]
   ∧ validate_ALLOWED_HOSTS (VStr (lit ", ,,")) = Some (HostsList []))
  ∧ (assemble_cors_origins (VStr []) = VList []
     ∧ assemble_cors_origins (VStr []) ≠ VList [VStr (lit "*")]
     ∧ validate_ALLOWED_HOSTS (VStr []) = Some (HostsList [])).
Proof.
  split.
  - apply (assemble_cors_origins_blank (lit ", ,,")).
    repeat constructor; (by left) || (by right).
  - apply (assemble_cors_origins_blank []). constructor.
Defined.

(** What [validate_ALLOWED_HOSTS] accepts is a list. *)
Lemma validate_ALLOWED_HOSTS_list (v : pyval) (h : hosts) :
  validate_ALLOWED_HOSTS v = Some h →
  ∃ raw l, assemble_cors_origins v = VList raw
           ∧ mapM as_str raw = Some l ∧ h = HostsList l.
Proof.
  unfold validate_ALLOWED_HOSTS. pose proof (assemble_cors_origins_is_list v) as Hl.
  destruct (assemble_cors_origins v) as [| | | |raw|]; try done.
  simpl. destruct (mapM as_str raw) as [l|] eqn:Hraw; [|done].
  intros [= <-]. by exists raw, l.
Qed.

Lemma filter_nonempty_Forall (l : list str) :
  Forall (λ s, s ≠ []) (List.filter nonempty l).
Proof.
  induction l as [|s l IH]; [done|].
  simpl. destruct s as [|c s]; [done|]. by constructor.
Qed.

(** A raw value that is not a list always validates. *)
Lemma validate_ALLOWED_HOSTS_total (v : pyval) :
  isinstance_list v = false → is_Some (validate_ALLOWED_HOSTS v).
Proof.
  intros Hv. unfold validate_ALLOWED_HOSTS. destruct v; try done.
  simpl. rewrite comprehension_filter_map, mapM_as_str. by eexists.
Qed.

(** C2, as the code has it: the field of a constructed instance is a list of
    strings and never a raw string; its elements are non-empty when the raw
    value was not a list, and are the elements of the raw list, as given, when
    it was one. *)
Theorem allowed_hosts_invariant (v : pyval) (h : hosts) :
  validate_ALLOWED_HOSTS v = Some h →
  ∃ l : list str,
    h = HostsList l
    ∧ (isinstance_list v = false → Forall (λ s, s ≠ []) l)
    ∧ (∀ raw, v = VList raw → raw = List.map VStr l).
Proof.
  intros Hv. destruct (validate_ALLOWED_HOSTS_list v h Hv) as (raw & l & Hraw & Hl & ->).
  exists l. split; [done|]. split.
  - intros Hnl. destruct v; try done.
    + injection Hraw as <-. injection Hl as <-. repeat constructor. done.
    + injection Hraw as <-. injection Hl as <-. repeat constructor. done.
    + injection Hraw as <-. injection Hl as <-. repeat constructor. done.
    + simpl in Hraw. rewrite comprehension_filter_map in Hraw.
      injection Hraw as <-. rewrite mapM_as_str in Hl. injection Hl as <-.
      apply filter_nonempty_Forall.
    + injection Hraw as <-. injection Hl as <-. repeat constructor. done.
  - intros raw' ->. injection Hraw as <-. by apply mapM_as_str_inv.
Qed.

Lemma allowed_hosts_invariant_witness :
  ∃ l : list str,
    HostsList [lit "a"; lit "b"; lit "c"] = HostsList l
    ∧ (isinstance_list (VStr (lit "a, b ,,c")) = false → Forall (λ s, s ≠ []) l)
    ∧ (∀ raw, VStr (lit "a, b ,,c") = VList raw → raw = List.map VStr l).
Proof.
  apply (allowed_hosts_invariant (VStr (lit "a, b ,,c"))). reflexivity.
Defined.

(** C2, as the spec states it, fails on the pass-through of a list: the raw
    list holding one empty string is accepted and the field then holds that
    empty string. *)
Lemma allowed_hosts_nonempty_fails :
  ¬ (∀ (v : pyval) (h : hosts),
       validate_ALLOWED_HOSTS v = Some h →
       ∃ l : list str, h = HostsList l ∧ Forall (λ s, s ≠ []) l).
Proof.
  intros H.
  destruct (H (VList [VStr []]) (HostsList [[]]) eq_refl)
    as (l & [= <-] & Hne).
  inversion Hne as [|? ? Hhd _]. by apply Hhd.
Qed.

(** ** The loader *)

Lemma load_dotenv_absent (override : bool) (environ : gmap str str) :
  load_dotenv override None environ = environ.
Proof. reflexivity. Qed.

(** With [override=True] a variable defined by the file has the file's value
    afterwards, whatever the environment held. *)
Lemma load_dotenv_override_lookup (entries environ : gmap str str) (name v : str) :
  entries !! name = Some v →
  load_dotenv true (Some entries) environ !! name = Some v.
Proof. intros Hv. simpl. by apply lookup_union_Some_l. Qed.

(** Without it the environment's value stays. *)
Lemma load_dotenv_keep_lookup (entries environ : gmap str str) (name w : str) :
  environ !! name = Some w →
  load_dotenv false (Some entries) environ !! name = Some w.
Proof. intros Hw. simpl. by apply lookup_union_Some_l. Qed.

Lemma load_dotenv_override_idemp (dotenv : option (gmap str str))
    (environ : gmap str str) :
  load_dotenv true dotenv (load_dotenv true dotenv environ) =
  load_dotenv true dotenv environ.
Proof.
  destruct dotenv as [entries|]; [|done].
  simpl. by rewrite (assoc_L (∪)), (idemp_L (∪)).
Qed.

(** After [load_dotenv] the file adds nothing to what the environment has. *)
Lemma source_value_loaded (dotenv : option (gmap str str))
    (environ : gmap str str) (name : str) :
  source_value dotenv (load_dotenv true dotenv environ) name =
  load_dotenv true dotenv environ !! name.
Proof.
  unfold source_value. destruct dotenv as [entries|]; simpl.
  - destruct ((entries ∪ environ) !! name) as [s|] eqn:Hl; [done|].
    apply lookup_union_None in Hl as [Hl _]. done.
  - by destruct (environ !! name).
Qed.

Lemma source_value_absent (environ : gmap str str) (name : str) :
  source_value None environ name = environ !! name.
Proof. unfold source_value. by destruct (environ !! name). Qed.

(** C5: with every declared variable unset and no [.env] file, loading
    succeeds and every field has its documented default; the environment is
    left as it was. *)
Theorem load_defaults (decode : str → option pyval)
    (coerce : str → option Z) (environ : gmap str str) :
  Forall (λ name, environ !! name = None) field_names →
  load decode coerce None environ = (inr documented_defaults, environ).
Proof.
  intros Hunset. unfold load. rewrite load_dotenv_absent. f_equal.
  unfold Settings_init. rewrite !source_value_absent.
  cbv [field_names List.map] in Hunset.
  repeat match type of Hunset with
         | Forall _ (_ :: _) =>
             let H := fresh "H" in
             apply Forall_cons in Hunset as [H Hunset]; rewrite H; clear H
         end.
  reflexivity.
Qed.

Lemma load_defaults_witness :
  load (λ _, None) parse_int None {[ lit "HOME" := lit "/root"; lit "cache_ttl" := lit "x" ]} =
  (inr documented_defaults, {[ lit "HOME" := lit "/root"; lit "cache_ttl" := lit "x" ]}).
Proof.
  apply (load_defaults (λ _, None)). unfold field_names. simpl.
  repeat constructor.
Defined.

(** How [Settings()] ends: with an instance when the three fields that can be
    rejected are accepted, with the list of the rejected ones otherwise. *)
Lemma Settings_init_inr (decode : str → option pyval)
    (coerce : str → option Z) (dotenv : option (gmap str str))
    (environ : gmap str str) (st : Settings) :
  Settings_init decode coerce dotenv environ = inr st →
  hosts_field decode (lit "ALLOWED_HOSTS")
    (source_value dotenv environ (lit "ALLOWED_HOSTS")) = inr (ALLOWED_HOSTS st)
  ∧ int_field coerce (lit "ACCESS_TOKEN_EXPIRE_MINUTES")
      (source_value dotenv environ (lit "ACCESS_TOKEN_EXPIRE_MINUTES")) 30 =
      inr (ACCESS_TOKEN_EXPIRE_MINUTES st)
  ∧ int_field coerce (lit "CACHE_TTL")
      (source_value dotenv environ (lit "CACHE_TTL")) 300 = inr (CACHE_TTL st)
  ∧ AWS_REGION st =
      str_field (source_value dotenv environ (lit "AWS_REGION")) (lit "us-east-1").
Proof.
  unfold Settings_init.
  destruct (hosts_field _ _ _) as [?|h]; [by destruct (int_field _ _ _ 30), (int_field _ _ _ 300)|].
  destruct (int_field _ _ _ 30) as [?|m]; [by destruct (int_field _ _ _ 300)|].
  destruct (int_field _ _ _ 300) as [?|t]; [done|].
  by intros [= <-].
Qed.

Lemma Settings_init_inl (decode : str → option pyval)
    (coerce : str → option Z) (dotenv : option (gmap str str))
    (environ : gmap str str) (e : ConfigError) :
  Settings_init decode coerce dotenv environ = inl e →
  rejected e =
    failures (hosts_field decode (lit "ALLOWED_HOSTS")
                (source_value dotenv environ (lit "ALLOWED_HOSTS")))
    ++ failures (int_field coerce (lit "ACCESS_TOKEN_EXPIRE_MINUTES")
                   (source_value dotenv environ (lit "ACCESS_TOKEN_EXPIRE_MINUTES")) 30)
    ++ failures (int_field coerce (lit "CACHE_TTL")
                   (source_value dotenv environ (lit "CACHE_TTL")) 300)
  ∧ rejected e ≠ [].
Proof.
  unfold Settings_init.
  destruct (hosts_field _ _ _) as [?|h];
    destruct (int_field _ _ _ 30) as [?|m];
    destruct (int_field _ _ _ 300) as [?|t]; by intros [= <-].
Qed.

Lemma failures_hosts_field (decode : str → option pyval) (name : str)
    (found : option str) (x : str) :
  x ∈ failures (hosts_field decode name found) ↔
  x = name ∧ ∃ s, found = Some s ∧ validate_ALLOWED_HOSTS (raw_hosts decode s) = None.
Proof.
  unfold hosts_field. destruct found as [s|]; simpl.
  - destruct (validate_ALLOWED_HOSTS (raw_hosts decode s)) eqn:Hs; simpl.
    + rewrite elem_of_nil. split; [done|]. intros (_ & s' & [= <-] & Hs'). congruence.
    + rewrite list_elem_of_singleton. split; [|by intros [? _]].
      intros ->. split; [done|]. by exists s.
  - rewrite elem_of_nil. split; [done|]. by intros (_ & s' & ? & _).
Qed.

Lemma failures_int_field (coerce : str → option Z) (name : str) (found : option str) (dflt : Z) (x : str) :
  x ∈ failures (int_field coerce name found dflt) ↔
  x = name ∧ ∃ s, found = Some s ∧ coerce s = None.
Proof.
  unfold int_field. destruct found as [s|]; simpl.
  - destruct (coerce s) eqn:Hs; simpl.
    + rewrite elem_of_nil. split; [done|]. intros (_ & s' & [= <-] & Hs'). congruence.
    + rewrite list_elem_of_singleton. split; [|by intros [? _]].
      intros ->. split; [done|]. by exists s.
  - rewrite elem_of_nil. split; [done|]. by intros (_ & s' & ? & _).
Qed.

(** Loading fails exactly when one of the three fields that can be rejected
    is: a value of [ALLOWED_HOSTS] that validates to no list of strings, or an
    integer field set to something that is no integer. *)
Lemma load_fails_iff (decode : str → option pyval)
    (coerce : str → option Z)
    (dotenv : option (gmap str str)) (environ : gmap str str) :
  (∃ e, (load decode coerce dotenv environ).1 = inl e) ↔
  (∃ s, (load decode coerce dotenv environ).2 !! lit "ALLOWED_HOSTS" = Some s
        ∧ validate_ALLOWED_HOSTS (raw_hosts decode s) = None)
  ∨ (∃ s, (load decode coerce dotenv environ).2 !! lit "ACCESS_TOKEN_EXPIRE_MINUTES" = Some s
          ∧ coerce s = None)
  ∨ (∃ s, (load decode coerce dotenv environ).2 !! lit "CACHE_TTL" = Some s
          ∧ coerce s = None).
Proof.
  unfold load. cbn [fst snd]. split.
  - intros [e He]. apply Settings_init_inl in He as [Hrej Hne].
    destruct (rejected e) as [|name rest] eqn:He; [done|].
    assert (Hin : name ∈ name :: rest) by by left.
    rewrite Hrej, !elem_of_app in Hin.
    rewrite failures_hosts_field, !failures_int_field in Hin.
    rewrite !source_value_loaded in Hin.
    destruct Hin as [[_ H]|[[_ H]|[_ H]]]; auto.
  - intros Hbad.
    destruct (Settings_init decode coerce dotenv (load_dotenv true dotenv environ))
      as [e|st] eqn:He; [by exists e|].
    exfalso. apply Settings_init_inr in He as (Hh & Hm & Ht & _).
    rewrite !source_value_loaded in Hh, Hm, Ht.
    destruct Hbad as [(s & Hs & Hp)|[(s & Hs & Hp)|(s & Hs & Hp)]].
    + rewrite Hs in Hh. simpl in Hh. by rewrite Hp in Hh.
    + rewrite Hs in Hm. simpl in Hm. by rewrite Hp in Hm.
    + rewrite Hs in Ht. simpl in Ht. by rewrite Hp in Ht.
Qed.

(** The fields of an instance are what [coerce_field] makes of the strings
    found for them. *)
Lemma getattr_loaded (decode : str → option pyval) (coerce : str → option Z)
    (dotenv : option (gmap str str)) (environ : gmap str str)
    (st : Settings) (name s : str) :
  Settings_init decode coerce dotenv environ = inr st →
  name ∈ field_names →
  source_value dotenv environ name = Some s →
  getattr st name = coerce_field decode coerce name s.
Proof.
  unfold Settings_init. intros Hinit Hname Hs.
  destruct (hosts_field _ _ _) as [?|h] eqn:Hh;
    [by destruct (int_field _ _ _ 30), (int_field _ _ _ 300)|].
  destruct (int_field _ _ _ 30) as [?|m] eqn:Hm; [by destruct (int_field _ _ _ 300)|].
  destruct (int_field _ _ _ 300) as [?|t] eqn:Ht; [done|].
  injection Hinit as <-.
  cbv [field_names List.map] in Hname.
  repeat (apply elem_of_cons in Hname as [->|Hname]);
    try (by apply elem_of_nil in Hname);
    try (rewrite Hs; reflexivity).
  - rewrite Hs in Hh. unfold hosts_field in Hh.
    change (Some (hosts_value h) =
            hosts_value <$> validate_ALLOWED_HOSTS (raw_hosts decode s)).
    destruct (validate_ALLOWED_HOSTS (raw_hosts decode s)); [|done].
    by injection Hh as ->.
  - rewrite Hs in Hm. unfold int_field in Hm.
    change (Some (VInt m) = VInt <$> coerce s).
    destruct (coerce s); [|done]. by injection Hm as ->.
  - rewrite Hs in Ht. unfold int_field in Ht.
    change (Some (VInt t) = VInt <$> coerce s).
    destruct (coerce s); [|done]. by injection Ht as ->.
Qed.

(** Loading returns an instance exactly when every field variable that is
    set has a value its field accepts. *)
Lemma load_succeeds_iff (decode : str → option pyval) (coerce : str → option Z)
    (dotenv : option (gmap str str)) (environ : gmap str str) :
  (∃ st, (load decode coerce dotenv environ).1 = inr st) ↔
  (∀ n s, n ∈ field_names →
          (load decode coerce dotenv environ).2 !! n = Some s →
          is_Some (coerce_field decode coerce n s)).
Proof.
  split.
  - intros [st Hst] n s Hn Hs. unfold load in Hst, Hs. cbn [fst snd] in Hst, Hs.
    rewrite <- source_value_loaded in Hs.
    rewrite <- (getattr_loaded _ _ _ _ st n s Hst Hn Hs).
    clear -Hn. destruct st. cbv [field_names List.map] in Hn.
    repeat (apply elem_of_cons in Hn as [->|Hn]);
      try (by apply elem_of_nil in Hn); eexists; reflexivity.
  - intros Hall.
    destruct ((load decode coerce dotenv environ).1) as [e|st] eqn:He; [|by exists st].
    exfalso. assert (Hfail : ∃ e, (load decode coerce dotenv environ).1 = inl e)
      by by exists e.
    apply load_fails_iff in Hfail as [(s & Hs & Hbad)|[(s & Hs & Hbad)|(s & Hs & Hbad)]].
    + assert (Hn : lit "ALLOWED_HOSTS" ∈ field_names) by compute_done.
      specialize (Hall _ s Hn Hs).
      change (is_Some (hosts_value <$> validate_ALLOWED_HOSTS (raw_hosts decode s)))
        in Hall.
      rewrite Hbad in Hall. by destruct Hall.
    + assert (Hn : lit "ACCESS_TOKEN_EXPIRE_MINUTES" ∈ field_names) by compute_done.
      specialize (Hall _ s Hn Hs).
      change (is_Some (VInt <$> coerce s)) in Hall.
      rewrite Hbad in Hall. by destruct Hall.
    + assert (Hn : lit "CACHE_TTL" ∈ field_names) by compute_done.
      specialize (Hall _ s Hn Hs).
      change (is_Some (VInt <$> coerce s)) in Hall.
      rewrite Hbad in Hall. by destruct Hall.
Qed.

(** C6: a field variable that the [.env] file defines has the file's value
    after loading, whatever the process environment held for it, a different
    value included, and the instance that loading returns has in that field
    what the field makes of the file's value: the string itself for a string
    field such as [AWS_REGION].  For a file that names fields only, an
    instance is returned exactly when every field variable that is set has a
    value its field accepts. *)
Theorem dotenv_wins (decode : str → option pyval) (coerce : str → option Z)
    (entries environ : gmap str str) (name v : str) :
  name ∈ field_names →
  entries !! name = Some v →
  (load decode coerce (Some entries) environ).2 !! name = Some v
  ∧ (∀ st, (load decode coerce (Some entries) environ).1 = inr st →
           getattr st name = coerce_field decode coerce name v)
  ∧ (names_fields_only (Some entries) →
     ((∃ st, (load decode coerce (Some entries) environ).1 = inr st) ↔
      (∀ n s, n ∈ field_names →
              (load decode coerce (Some entries) environ).2 !! n = Some s →
              is_Some (coerce_field decode coerce n s)))).
Proof.
  intros Hname Hv.
  pose proof (load_dotenv_override_lookup entries environ _ _ Hv) as Hlook.
  split; [done|]. split.
  - intros st Hst. unfold load in Hst. cbn [fst snd] in Hst.
    apply (getattr_loaded _ _ _ _ st name v Hst Hname).
    by rewrite source_value_loaded.
  - intros _. apply load_succeeds_iff.
Qed.

Lemma dotenv_wins_witness :
  ∃ st,
    (load (λ _, None) parse_int (Some {[ lit "AWS_REGION" := lit "eu-west-1" ]})
       {[ lit "AWS_REGION" := lit "us-west-2"; lit "CACHE_TTL" := lit "60" ]}).1 =
      inr st
    ∧ getattr st (lit "AWS_REGION") = Some (VStr (lit "eu-west-1"))
    ∧ CACHE_TTL st = 60%Z
    ∧ (load (λ _, None) parse_int (Some {[ lit "AWS_REGION" := lit "eu-west-1" ]})
         {[ lit "AWS_REGION" := lit "us-west-2"; lit "CACHE_TTL" := lit "60" ]}).2
        !! lit "AWS_REGION" = Some (lit "eu-west-1").
Proof.
  destruct (dotenv_wins (λ _, None) parse_int
              {[ lit "AWS_REGION" := lit "eu-west-1" ]}
              {[ lit "AWS_REGION" := lit "us-west-2"; lit "CACHE_TTL" := lit "60" ]}
              (lit "AWS_REGION") (lit "eu-west-1"))
    as (Henv & Hfield & _); [by compute_done | reflexivity |].
  eexists. split; [reflexivity|].
  split; [exact (Hfield _ eq_refl)|]. split; [reflexivity | exact Henv].
Defined.

(** The instance of that example, in full. *)
Example file_region_instance :
  (load (λ _, None) parse_int (Some {[ lit "AWS_REGION" := lit "eu-west-1" ]})
     {[ lit "AWS_REGION" := lit "us-west-2" ]}).1 =
  inr (mkSettings
         (lit "FastAPI AWS Boilerplate") (lit "1.0.0")
         (lit "FastAPI application with AWS services") (lit "/api/v1")
         (lit "development") (HostsList [lit "*"]) (lit "eu-west-1") None None
         (lit "fastapi-app") (lit "fastapi-app-users") None None None
         (lit "us-east-1") None (lit "us-east-1")
         (lit "your-secret-key-change-this") (lit "HS256") 30 300).
Proof. reflexivity. Qed.

(** Without [override] the process environment would win. *)
Example environ_wins_without_override :
  load_dotenv false (Some {[ lit "AWS_REGION" := lit "eu-west-1" ]})
    {[ lit "AWS_REGION" := lit "us-west-2" ]} !! lit "AWS_REGION" =
  Some (lit "us-west-2").
Proof. reflexivity. Qed.





Lemma fieldwise_eq_refl (st : Settings) : fieldwise_eq st st.
Proof. by repeat split. Qed.

(** Field-wise equality is equality of instances. *)
Lemma fieldwise_eq_iff (a b : Settings) : fieldwise_eq a b ↔ a = b.
Proof.
  split; [|intros ->; apply fieldwise_eq_refl].
  destruct a, b. unfold fieldwise_eq. simpl.
  intros (-> & -> & -> & -> & -> & -> & -> & -> & -> & -> & -> & -> & -> & ->
          & -> & -> & -> & -> & -> & -> & ->).
  reflexivity.
Qed.

Lemma outcomes_agree_refl (r : ConfigError + Settings) : outcomes_agree r r.
Proof. destruct r; [done | apply fieldwise_eq_refl]. Qed.

(** C8: loading is repeatable.  Two calls under the same environment and
    file have the same outcome, and so has a second call made after the
    first, in the environment the first one left: both fail or both return
    field-wise equal instances, and the second call leaves the environment as
    it found it. *)
Theorem load_idempotent (decode : str → option pyval)
    (coerce : str → option Z)
    (dotenv : option (gmap str str)) (environ : gmap str str) :
  outcomes_agree (load decode coerce dotenv environ).1 (load decode coerce dotenv environ).1
  ∧ outcomes_agree (load decode coerce dotenv environ).1
      (load decode coerce dotenv (load decode coerce dotenv environ).2).1
  ∧ (load decode coerce dotenv (load decode coerce dotenv environ).2).2 =
      (load decode coerce dotenv environ).2.
Proof.
  unfold load. cbn [fst snd]. rewrite load_dotenv_override_idemp.
  repeat split; apply outcomes_agree_refl.
Qed.

(** The first call does change the environment when the file has something
    to add: loading is repeatable, not free of effects. *)
Example load_changes_environ :
  (load (λ _, None) parse_int (Some {[ lit "AWS_REGION" := lit "eu-west-1" ]}) ∅).2 =
  {[ lit "AWS_REGION" := lit "eu-west-1" ]}.
Proof. unfold load. simpl. apply (right_id_L ∅ (∪)). Qed.

(** An environment value of [ALLOWED_HOSTS] that decodes to a list of strings
    reaches the field as that list, empty strings included. *)
Lemma hosts_field_pass_through (decode : str → option pyval)
    (name s : str) (l : list str) :
  decode s = Some (VList (List.map VStr l)) →
  hosts_field decode name (Some s) = inr (HostsList l).
Proof.
  intros Hs. unfold hosts_field, raw_hosts, validate_ALLOWED_HOSTS.
  rewrite Hs. simpl. by rewrite mapM_as_str.
Qed.

(** An environment value of [ALLOWED_HOSTS] that does not decode and holds
    only commas and whitespace gives the empty allow-list. *)
Lemma hosts_field_blank (decode : str → option pyval) (name s : str) :
  decode s = None →
  Forall (λ c, c = comma ∨ isspace c = true) s →
  hosts_field decode name (Some s) = inr (HostsList []).
Proof.
  intros Hs Hblank. unfold hosts_field, raw_hosts, validate_ALLOWED_HOSTS.
  rewrite Hs. simpl. rewrite filter_truthy_strip_all_space; [done|].
  by apply split_comma_all_space.
Qed.

(** ** Further properties of the validator *)

Lemma assemble_cors_origins_VStr (s : str) :
  assemble_cors_origins (VStr s) = VList (List.map VStr (comprehension s)).
Proof. unfold comprehension. simpl. by rewrite List.map_map. Qed.

Lemma map_VStr_inj (l k : list str) : List.map VStr l = List.map VStr k → l = k.
Proof.
  revert k. induction l as [|a l IH]; intros [|b k]; try done.
  simpl. intros [= -> Hk]. by rewrite (IH k).
Qed.

Lemma split_app (sep : char) (a b : str) :
  split sep (a ++ sep :: b) = split sep a ++ split sep b.
Proof.
  induction a as [|c a IH]; simpl.
  - by rewrite N.eqb_refl.
  - rewrite IH. destruct (c =? sep)%N; [done|].
    pose proof (split_not_nil sep a) as Hnil.
    by destruct (split sep a).
Qed.

Lemma split_length (sep : char) (s : str) :
  length (split sep s) = S (count_occ N.eq_dec s sep).
Proof.
  induction s as [|c s IH]; [done|].
  rewrite split_cons. destruct (N.eqb_spec c sep) as [->|Hne].
  - rewrite count_occ_cons_eq by done. simpl. by rewrite IH.
  - rewrite count_occ_cons_neq by done. rewrite <- IH.
    pose proof (split_not_nil sep s) as Hnil.
    by destruct (split sep s).
Qed.

(** Splitting what [join] made gives the pieces back. *)
Lemma split_join (sep : char) (ps : list str) :
  ps ≠ [] → Forall (λ p, sep ∉ p) ps → split sep (join sep ps) = ps.
Proof.
  intros Hne Hfree.
  apply (split_on_unique sep (join sep ps)); [apply split_split_on|].
  by repeat split.
Qed.

Lemma strip_substring (p : str) : substring (strip p) p.
Proof. destruct (strip_trimmed p) as (l & r & Hp & _). by exists l, r. Qed.

Lemma substring_trans (a b c : str) : substring a b → substring b c → substring a c.
Proof.
  intros (l1 & r1 & ->) (l2 & r2 & ->). exists (l2 ++ l1), (r1 ++ r2).
  by rewrite <- !app_assoc.
Qed.

Lemma substring_elem_of (x : char) (t s : str) : substring t s → x ∈ t → x ∈ s.
Proof. intros (a & b & ->) Hx. rewrite !elem_of_app. auto. Qed.

Lemma piece_substring (sep : char) (p : str) (ps : list str) :
  p ∈ ps → substring p (join sep ps).
Proof.
  induction ps as [|q ps IH]; [by intros ?%elem_of_nil|].
  intros [->|Hin]%elem_of_cons.
  - destruct ps as [|q' ps]; simpl.
    + exists [], []. by rewrite app_nil_r.
    + by exists [], (sep :: join sep (q' :: ps)).
  - destruct ps as [|q' ps]; [by apply elem_of_nil in Hin|].
    rewrite join_cons_cons. destruct (IH Hin) as (a & b & ->).
    exists (q ++ sep :: a), b. by rewrite <- app_assoc.
Qed.

Lemma strip_idemp (p : str) : strip (strip p) = strip p.
Proof.
  apply trimmed_strip. destruct (strip_trimmed p) as (l & r & _ & _ & _ & Hh & Hl).
  exists [], []. rewrite app_nil_r. by repeat split.
Qed.

Lemma strip_padded (p p' : str) : padded p p' → strip p' = strip p.
Proof.
  intros (l & r & -> & Fl & Fr). apply trimmed_strip.
  destruct (strip_trimmed p) as (l0 & r0 & Hp & Fl0 & Fr0 & Hh & Hl).
  exists (l ++ l0), (r0 ++ r). split; [|by rewrite !Forall_app].
  rewrite Hp at 1. by rewrite <- !app_assoc.
Qed.

Lemma space_not_comma (l : str) : Forall (λ c, isspace c = true) l → comma ∉ l.
Proof.
  induction 1 as [|c l Hc _ IH]; [apply not_elem_of_nil|].
  apply not_elem_of_cons. split; [|done]. by intros <-.
Qed.

Lemma elem_of_comprehension (t s : str) :
  t ∈ comprehension s ↔ ∃ p, p ∈ split comma s ∧ t = strip p ∧ t ≠ [].
Proof.
  unfold comprehension. rewrite list_elem_of_In, in_map_iff. split.
  - intros (p & <- & Hp). apply filter_In in Hp as [Hp Ht].
    exists p. rewrite list_elem_of_In. split; [done|]. split; [done|].
    by destruct (strip p).
  - intros (p & Hp & -> & Hne). exists p. split; [done|].
    apply filter_In. rewrite <- list_elem_of_In. split; [done|].
    by destruct (strip p).
Qed.

Lemma comprehension_entry_ok (s : str) : Forall entry_ok (comprehension s).
Proof.
  apply Forall_forall. intros t (p & Hp & -> & Hne)%elem_of_comprehension.
  split; [done|]. split; [|apply strip_idemp].
  intros Hc. apply (substring_elem_of _ _ _ (strip_substring p)) in Hc.
  pose proof (split_no_sep comma s) as Hfree.
  rewrite Forall_forall in Hfree. by apply (Hfree p).
Qed.

Lemma comprehension_substring (s : str) :
  Forall (λ t, substring t s) (comprehension s).
Proof.
  apply Forall_forall. intros t (p & Hp & -> & _)%elem_of_comprehension.
  apply (substring_trans _ p); [apply strip_substring|].
  rewrite <- (join_split comma s) at 1. by apply piece_substring.
Qed.

Lemma comprehension_join (hs : list str) :
  Forall entry_ok hs → comprehension (join comma hs) = hs.
Proof.
  intros Hok. destruct hs as [|h hs]; [done|].
  unfold comprehension. rewrite split_join; [|done|].
  - induction Hok as [|t ts (Hne & _ & Hfix) _ IH]; [done|].
    simpl. rewrite Hfix. destruct t as [|c t]; [done|]. simpl.
    rewrite Hfix. by rewrite IH.
  - eapply Forall_impl; [done|]. by intros t (_ & ? & _).
Qed.

(** X1: every entry the validator makes from a string is well formed: it is
    not empty, holds no comma and has no whitespace at either end. *)
Theorem hosts_entries_ok (s : str) :
  ∃ hs : list str,
    assemble_cors_origins (VStr s) = VList (List.map VStr hs)
    ∧ Forall entry_ok hs.
Proof.
  exists (comprehension s).
  split; [apply assemble_cors_origins_VStr | apply comprehension_entry_ok].
Qed.

(** X2: the validator invents nothing: every entry it makes from a string is
    a contiguous part of that string. *)
Theorem hosts_are_substrings (s : str) :
  ∃ hs : list str,
    assemble_cors_origins (VStr s) = VList (List.map VStr hs)
    ∧ Forall (λ t, substring t s) hs.
Proof.
  exists (comprehension s).
  split; [apply assemble_cors_origins_VStr | apply comprehension_substring].
Qed.

(** X3: well-formed entries joined with commas are read back as they were,
    in the same order. *)
Theorem join_round_trip (hs : list str) :
  Forall entry_ok hs →
  assemble_cors_origins (VStr (join comma hs)) = VList (List.map VStr hs).
Proof.
  intros Hok. by rewrite assemble_cors_origins_VStr, comprehension_join.
Qed.

Lemma join_round_trip_witness :
  assemble_cors_origins
    (VStr (join comma [lit "localhost"; lit "my host"; lit "*"])) =
  VList (List.map VStr [lit "localhost"; lit "my host"; lit "*"]).
Proof.
  apply (join_round_trip [lit "localhost"; lit "my host"; lit "*"]).
  repeat constructor; (by compute_done) || by vm_compute.
Defined.

(** X4: the entries made from a string, joined with commas, are read as the
    same entries again: writing the list back as a string loses nothing. *)
Theorem rejoin_stable (s : str) :
  ∃ hs : list str,
    assemble_cors_origins (VStr s) = VList (List.map VStr hs)
    ∧ assemble_cors_origins (VStr (join comma hs)) =
        assemble_cors_origins (VStr s).
Proof.
  exists (comprehension s). split; [apply assemble_cors_origins_VStr|].
  rewrite !assemble_cors_origins_VStr, comprehension_join; [done|].
  apply comprehension_entry_ok.
Qed.

Lemma comprehension_app (a b : str) :
  comprehension (a ++ comma :: b) = comprehension a ++ comprehension b.
Proof.
  unfold comprehension. by rewrite split_app, List.filter_app, List.map_app.
Qed.

(** X5: two strings put together with a comma between them give the entries
    of the first followed by the entries of the second. *)
Theorem comma_concatenation (a b : str) :
  ∃ ha hb : list pyval,
    assemble_cors_origins (VStr a) = VList ha
    ∧ assemble_cors_origins (VStr b) = VList hb
    ∧ assemble_cors_origins (VStr (a ++ comma :: b)) = VList (ha ++ hb).
Proof.
  exists (List.map VStr (comprehension a)), (List.map VStr (comprehension b)).
  rewrite !assemble_cors_origins_VStr, comprehension_app, List.map_app. done.
Qed.

(** X6: a string with [n] commas gives at most [n + 1] entries. *)
Theorem hosts_count_bound (s : str) :
  ∃ l : list pyval,
    assemble_cors_origins (VStr s) = VList l
    ∧ length l ≤ S (count_occ N.eq_dec s comma).
Proof.
  exists (List.map VStr (comprehension s)).
  split; [apply assemble_cors_origins_VStr|].
  unfold comprehension. rewrite !List.length_map, <- split_length.
  apply List.filter_length_le.
Qed.

Lemma padded_no_comma (ps ps' : list str) :
  Forall (λ p, comma ∉ p) ps → Forall2 padded ps ps' →
  Forall (λ p, comma ∉ p) ps'.
Proof.
  intros Hfree Hpad. induction Hpad as [|q q' qs qs' Hq _ IH]; [done|].
  apply Forall_cons in Hfree as [Hq' Hfree].
  constructor; [|by apply IH].
  destruct Hq as (l & r & -> & Fl & Fr). intros Hc.
  apply elem_of_app in Hc as [Hc|Hc]; [by apply (space_not_comma l Fl)|].
  apply elem_of_app in Hc as [Hc|Hc]; [done | by apply (space_not_comma r Fr)].
Qed.

Lemma kept_padded (ps ps' : list str) :
  Forall2 padded ps ps' →
  List.map strip (List.filter (λ i, truthy (strip i)) ps') =
  List.map strip (List.filter (λ i, truthy (strip i)) ps).
Proof.
  induction 1 as [|q q' qs qs' Hq _ IH]; [done|].
  simpl. rewrite (strip_padded q q' Hq).
  destruct (truthy (strip q)); simpl; by rewrite ?(strip_padded q q' Hq), IH.
Qed.

Lemma comprehension_padded (ps ps' : list str) :
  Forall (λ p, comma ∉ p) ps → Forall2 padded ps ps' →
  comprehension (join comma ps') = comprehension (join comma ps).
Proof.
  intros Hfree Hpad. pose proof (padded_no_comma ps ps' Hfree Hpad) as Hfree'.
  destruct Hpad as [|p p' ps ps' Hp Hps]; [done|].
  unfold comprehension.
  rewrite (split_join comma (p' :: ps')) by done.
  rewrite (split_join comma (p :: ps)) by done.
  apply kept_padded. by constructor.
Qed.

(** X7: whitespace around the pieces does not count: pieces without a comma,
    each padded with whitespace at its ends and joined with commas, give the
    same entries as the pieces joined without the padding. *)
Theorem padding_ignored (ps ps' : list str) :
  Forall (λ p, comma ∉ p) ps →
  Forall2 padded ps ps' →
  assemble_cors_origins (VStr (join comma ps')) =
  assemble_cors_origins (VStr (join comma ps)).
Proof.
  intros Hfree Hpad.
  by rewrite !assemble_cors_origins_VStr, (comprehension_padded ps ps').
Qed.

Lemma padding_ignored_witness :
  assemble_cors_origins (VStr (join comma [lit " a.example"; lit "b.example  "])) =
  assemble_cors_origins (VStr (join comma [lit "a.example"; lit "b.example"])).
Proof.
  apply (padding_ignored [lit "a.example"; lit "b.example"]).
  - repeat constructor; by compute_done.
  - constructor; [|constructor; [|constructor]].
    + exists (lit " "), []. by repeat constructor.
    + exists [], (lit "  "). by repeat constructor.
Defined.

Lemma mapM_as_str_None (l : list pyval) :
  mapM as_str l = None ↔ Exists (λ x, isinstance_str x = false) l.
Proof.
  induction l as [|x l IH].
  - split; [done|]. by intros ?%Exists_nil.
  - rewrite Exists_cons, <- IH. simpl.
    destruct x; simpl; try (split; [by left | done]).
    destruct (mapM as_str l); simpl; split; try done.
    + by intros [?|?].
    + by right.
Qed.

(** X8: [ALLOWED_HOSTS] is rejected in one case only: the raw value is a
    list and one of its elements is not a string.  A string, and any value
    that is neither a string nor a list, is always accepted. *)
Theorem validation_rejects_iff (v : pyval) :
  validate_ALLOWED_HOSTS v = None ↔
  ∃ l, v = VList l ∧ Exists (λ x, isinstance_str x = false) l.
Proof.
  unfold validate_ALLOWED_HOSTS. destruct v; simpl;
    try (split; [done | by intros (? & [=] & _)]).
  - rewrite <- (List.map_map strip VStr), mapM_as_str. simpl.
    split; [done | by intros (? & [=] & _)].
  - split.
    + intros Hl. exists l. split; [done|]. apply mapM_as_str_None.
      by destruct (mapM as_str l).
    + intros (l' & [= <-] & Hl). apply mapM_as_str_None in Hl. by rewrite Hl.
Qed.

Lemma validation_rejects_iff_witness :
  validate_ALLOWED_HOSTS (VList [VStr (lit "a.example"); VInt 8080]) = None.
Proof.
  apply (validation_rejects_iff (VList [VStr (lit "a.example"); VInt 8080])).
  eexists. split; [reflexivity|]. right. left. reflexivity.
Defined.

(** X9: only the variables named exactly like a field are read: two
    environments that agree on the 21 field names give the same result,
    whatever else they hold, names in another case included. *)
Theorem other_variables_ignored (decode : str → option pyval)
    (coerce : str → option Z)
    (environ1 environ2 : gmap str str) :
  Forall (λ name, environ1 !! name = environ2 !! name) field_names →
  (load decode coerce None environ1).1 = (load decode coerce None environ2).1.
Proof.
  intros Hagree. unfold load. cbn [fst snd]. rewrite !load_dotenv_absent.
  unfold Settings_init. rewrite !source_value_absent.
  cbv [field_names List.map] in Hagree.
  repeat match type of Hagree with
         | Forall _ (_ :: _) =>
             let H := fresh "H" in
             apply Forall_cons in Hagree as [H Hagree]; rewrite H; clear H
         end.
  reflexivity.
Qed.

Lemma other_variables_ignored_witness :
  (load (λ _, None) parse_int None
     {[ lit "AWS_REGION" := lit "eu-west-1"; lit "aws_region" := lit "x";
        lit "HOME" := lit "/root" ]}).1 =
  (load (λ _, None) parse_int None {[ lit "AWS_REGION" := lit "eu-west-1" ]}).1.
Proof.
  apply (other_variables_ignored (λ _, None)). unfold field_names. simpl.
  repeat constructor.
Defined.
